(** * react-three-store: the provider of [src/index.js]

    [ThreeStoreProvider] mirrors key/value pairs over three places: the
    query parameters of the page address, a React state object and
    [window.localStorage].  This file embeds the three callbacks handed
    out through the context ([store], [getStored], [clearStored]) and the
    cleanup of the provider's effect, and states what they do.

    Modelling conventions.
    - The address is represented by the list of name/value pairs of its
      query, the way [URLSearchParams] holds it: order and duplicates are
      kept.  Origin, path and fragment are never touched by the code and
      are left out.  Serialising the list into [location.href] and parsing
      it back is taken to be the identity (keys and values are well-formed
      strings).
    - The React state object and [localStorage] are finite maps from
      strings to strings: the own properties of the object, the items of
      the storage.  A property read [storage[key]] that finds no own
      property goes on to [Object.prototype], whose standard members are
      listed in [Object_prototype_names].
    - [setItem] is taken to succeed: the quota of the origin is not
      reached.  The statements that rest on it are those about what
      durable storage holds after a [store] whose durable-storage step
      runs.
    - [typeof window !== 'undefined'] is [window w <> None].  Without a
      page the globals [window] and [history] are undeclared, so evaluating
      them raises [ReferenceError].
    - [setStorage] is applied at once: React applies the queued functional
      updates in call order, and no callback reads the state cell itself.
    - A call returns the world it leaves together with its completion:
      effects performed before an exception are kept. *)

From stdpp Require Import gmap strings list fin_maps.

(** ** JavaScript values, [||], completions *)

Inductive jsval : Type :=
| JUndefined
| JNull
| JString (s : string)
| JInherited (name : string).

(** ToBoolean on the values that occur: [undefined], [null] and the empty
    string are falsy; a member inherited from [Object.prototype] (a
    function, or the prototype object itself) is truthy. *)
Definition truthy (v : jsval) : bool :=
  match v with
  | JUndefined | JNull => false
  | JString EmptyString => false
  | JString _ => true
  | JInherited _ => true
  end.

(** [a || b] *)
Definition js_or (a b : jsval) : jsval := if truthy a then a else b.

(** The value of a property read [obj[key]] / of [getItem]: the entry, or
    the given default when there is none. *)
Definition of_lookup (dflt : jsval) (o : option string) : jsval :=
  match o with
  | Some s => JString s
  | None => dflt
  end.

(** The property names every object inherits from [Object.prototype]
    (ECMAScript, with the legacy accessors of its annex B). *)
Definition Object_prototype_names : list string :=
  ["constructor"; "hasOwnProperty"; "isPrototypeOf"; "propertyIsEnumerable";
   "toLocaleString"; "toString"; "valueOf"; "__proto__";
   "__defineGetter__"; "__defineSetter__"; "__lookupGetter__";
   "__lookupSetter__"].

(** What a read of [key] finds on [Object.prototype]: [JInherited key] is
    the member of that name, [undefined] stands for no member. *)
Definition prototype_read (key : string) : jsval :=
  if bool_decide (key ∈ Object_prototype_names) then JInherited key
  else JUndefined.

(** [obj[key]] on a plain object with the given own properties: the own
    property, else what [Object.prototype] has under that name. *)
Definition property_read (obj : gmap string string) (key : string) : jsval :=
  match obj !! key with
  | Some s => JString s
  | None => prototype_read key
  end.

Inductive jsError : Type :=
| ReferenceError
| TypeError.

Inductive completion (A : Type) : Type :=
| Normal (a : A)
| Throw (e : jsError).
Arguments Normal {A} a.
Arguments Throw {A} e.

(** ** URLSearchParams *)

Module URLSearchParams.

Definition t : Type := list (string * string).

(** [get(name)]: the value of the first pair called [name], else [null]. *)
Fixpoint get (name : string) (l : t) : option string :=
  match l with
  | [] => None
  | (n, v) :: r => if decide (n = name) then Some v else get name r
  end.

(** [delete(name)]: drops every pair called [name]. *)
Fixpoint delete (name : string) (l : t) : t :=
  match l with
  | [] => []
  | (n, v) :: r =>
      if decide (n = name) then delete name r else (n, v) :: delete name r
  end.

(** [set(name, value)]: overwrites the first pair called [name] and drops
    the later ones; appends a pair when there is none. *)
Fixpoint set (name value : string) (l : t) : t :=
  match l with
  | [] => [(name, value)]
  | (n, v) :: r =>
      if decide (n = name) then (name, value) :: delete name r
      else (n, v) :: set name value r
  end.

End URLSearchParams.

(** ** The page and the world *)

(** A page: the address shown ([location] is the query of
    [window.location.href]), the session history around the current entry
    ([back]: older entries, nearest first; [forward]: entries ahead), and
    [window.localStorage]. *)
Record Window : Type := mkWindow {
  location : URLSearchParams.t;
  back : list URLSearchParams.t;
  forward : list URLSearchParams.t;
  localStorage : gmap string string
}.

(** [history.length] *)
Definition history_length (win : Window) : nat :=
  length (back win) + 1 + length (forward win).

(** The world a callback runs in: the page, if there is one, and the state
    cell behind [useState({})], holding the latest [storage]. *)
Record World : Type := mkWorld {
  window : option Window;
  hook_storage : gmap string string
}.

(** [useState({})]: the [storage] of the mount render. *)
Definition mount_storage : gmap string string := ∅.

(** ** Computations *)

Definition js (A : Type) : Type := World → World * completion A.

Global Instance js_ret : MRet js := λ A a w, (w, Normal a).

Global Instance js_throw : MThrow jsError js := λ A e w, (w, Throw e).

(** Sequencing: a throw in the first computation skips the second and
    keeps the world reached so far. *)
Global Instance js_bind : MBind js := λ A B k c w,
  match c w with
  | (w', Normal a) => k a w'
  | (w', Throw e) => (w', Throw e)
  end.

(** [if (b) { c }] *)
Definition when (b : bool) (c : js unit) : js unit :=
  if b then c else mret tt.

(** [l.forEach(f)] *)
Fixpoint forEach {A} (l : list A) (f : A → js unit) : js unit :=
  match l with
  | [] => mret tt
  | a :: r => f a;; forEach r f
  end.

(** [typeof window !== 'undefined'] *)
Definition typeof_window_defined : js bool :=
  λ w, (w, Normal (bool_decide (is_Some (window w)))).

(** Evaluating the global [window] (or [history]). *)
Definition the_window : js Window :=
  λ w, match window w with
       | Some win => (w, Normal win)
       | None => (w, Throw ReferenceError)
       end.

Definition put_window (win : Window) : js unit :=
  λ w, (mkWorld (Some win) (hook_storage w), Normal tt).

(** [new URL(window.location.href)]: a private copy of the address. *)
Definition new_URL_href : js URLSearchParams.t :=
  win ← the_window; mret (location win).

(** [history.pushState({}, '', url)]: a new entry for [url] is put after
    the current one and becomes current; the entries that were ahead are
    dropped.  The page is not reloaded. *)
Definition pushState_on (url : URLSearchParams.t) (win : Window) : Window :=
  mkWindow url (location win :: back win) [] (localStorage win).

Definition history_pushState (url : URLSearchParams.t) : js unit :=
  win ← the_window; put_window (pushState_on url win).

(** [window.localStorage.setItem(key, value)], within the quota of the
    origin: the item is written. *)
Definition localStorage_setItem (key value : string) : js unit :=
  win ← the_window;
  put_window (mkWindow (location win) (back win) (forward win)
                       (<[key := value]> (localStorage win))).

(** [window.localStorage.removeItem(key)] *)
Definition localStorage_removeItem (key : string) : js unit :=
  win ← the_window;
  put_window (mkWindow (location win) (back win) (forward win)
                       (base.delete key (localStorage win))).

(** [window.localStorage.getItem(key)] *)
Definition localStorage_getItem (key : string) : js jsval :=
  win ← the_window; mret (of_lookup JNull (localStorage win !! key)).

(** [window.localStorage.delete(key)]: [Storage] has no method [delete]
    (the property read yields [undefined], or the string stored under the
    key "delete"), so the call raises [TypeError]. *)
Definition localStorage_delete (key : string) : js unit :=
  win ← the_window; mthrow TypeError.

(** [setStorage(f)]: functional update of the state cell; [f] receives the
    latest state and returns a new object. *)
Definition setStorage (f : gmap string string → gmap string string) : js unit :=
  λ w, (mkWorld (window w) (f (hook_storage w)), Normal tt).

(** ** The provider *)

Record Props : Type := mkProps {
  skipUrl : bool;
  skipLocalStore : bool;
  skipState : bool;
  clearUrlParamsOnUnmount : bool;
  clearLocalStoreOnUnmount : bool
}.

(** The per-call [options] object, read through the truthiness of its
    three properties. *)
Record Options : Type := mkOptions {
  o_skipUrl : bool;
  o_skipState : bool;
  o_skipLocalStore : bool
}.

(** [options ?? {}] *)
Definition nullish_options (options : option Options) : Options :=
  match options with
  | Some o => o
  | None => mkOptions false false false
  end.

(** [Object.keys(storage)].  The order of the keys only decides the order
    of deletions that commute. *)
Definition Object_keys (storage : gmap string string) : list string :=
  (map_to_list storage).*1.

Section ThreeStoreProvider.

(** One render of the provider: its props, and the [storage] that
    [useState] returned in that render.  The closures below are the ones
    created by that render. *)
Variable props : Props.
Variable storage : gmap string string.

Definition cleanup : js unit :=
  let cleanupKeys := Object_keys storage in
  (page ← typeof_window_defined;
   when page
     (url ← new_URL_href;
      let url := foldl (λ u key, URLSearchParams.delete key u) url cleanupKeys in
      when (clearUrlParamsOnUnmount props) (history_pushState url)));;
  forEach cleanupKeys (λ key,
    when (clearLocalStoreOnUnmount props) (localStorage_delete key)).

Definition store (storable : string * string) (options : option Options)
  : js unit :=
  let options := nullish_options options in
  (page ← typeof_window_defined;
   when (negb (skipUrl props) && negb (o_skipUrl options) && page)
     (url ← new_URL_href;
      let url := URLSearchParams.set storable.1 storable.2 url in
      history_pushState url));;
  when (negb (skipState props) && negb (o_skipState options))
    (setStorage (λ storage, <[storable.1 := storable.2]> storage));;
  when (negb (skipLocalStore props) && negb (o_skipLocalStore options))
    (localStorage_setItem storable.1 storable.2).

Definition getStored (key : string) : js jsval :=
  page ← typeof_window_defined;
  if page : bool then
    url ← new_URL_href;
    let urlValue := of_lookup JNull (URLSearchParams.get key url) in
    mret urlValue
  else
    let stateValue := property_read storage key in
    page ← typeof_window_defined;
    localStoreValue ←
      (if page : bool then localStorage_getItem key else mret JUndefined);
    mret (js_or (js_or stateValue localStoreValue) JNull).

Definition clearStored (key : string) : js unit :=
  (page ← typeof_window_defined;
   when page
     (url ← new_URL_href;
      let url := URLSearchParams.delete key url in
      history_pushState url));;
  setStorage (λ storage,
    let newStorage := storage in
    let newStorage := base.delete key newStorage in
    newStorage);;
  (page ← typeof_window_defined;
   when page (localStorage_removeItem key)).

End ThreeStoreProvider.

(** [useEffect(..., [])] keeps the cleanup of the mount render and
    [useCallback(..., [])] keeps the callbacks of the mount render: the
    [storage] they close over is [mount_storage] for the whole life of the
    provider, since [setStorage] replaces the state object and never
    mutates it. *)
Definition unmount (props : Props) : js unit := cleanup props mount_storage.

Definition ctx_getStored (key : string) : js jsval := getStored mount_storage key.

(** ** Observations *)

(** The gate of each step of [store], as written in its three [if]s. *)
Definition url_enabled (props : Props) (options : option Options) : bool :=
  negb (skipUrl props) && negb (o_skipUrl (nullish_options options)).

Definition state_enabled (props : Props) (options : option Options) : bool :=
  negb (skipState props) && negb (o_skipState (nullish_options options)).

Definition localStore_enabled (props : Props) (options : option Options) : bool :=
  negb (skipLocalStore props) && negb (o_skipLocalStore (nullish_options options)).

(** What the three places hold for [key]; [None] outside: no page. *)
Definition in_url (key : string) (w : World) : option (option string) :=
  win ← window w; Some (URLSearchParams.get key (location win)).

Definition in_state (key : string) (w : World) : option string :=
  hook_storage w !! key.

Definition in_localStorage (key : string) (w : World) : option (option string) :=
  win ← window w; Some (localStorage win !! key).

(** The observable state: query parameters, state object, durable storage. *)
Definition observable (w : World)
  : option URLSearchParams.t * gmap string string * option (gmap string string) :=
  (location <$> window w, hook_storage w, localStorage <$> window w).

(** A world with a page. *)
Definition on_page (win : Window) (s : gmap string string) : World :=
  mkWorld (Some win) s.

(** A world without one (server-side rendering). *)
Definition off_page (s : gmap string string) : World := mkWorld None s.

Definition with_localStorage (m : gmap string string) (win : Window) : Window :=
  mkWindow (location win) (back win) (forward win) m.

(** ** Sequences of calls *)

(** What a descendant does with the context value: one of the three
    callbacks, as handed out by the mount render. *)
Inductive Call : Type :=
| Call_store (storable : string * string) (options : option Options)
| Call_getStored (key : string)
| Call_clearStored (key : string).

Definition perform (props : Props) (c : Call) : js unit :=
  match c with
  | Call_store storable options => store props storable options
  | Call_getStored key => _ ← ctx_getStored key; mret tt
  | Call_clearStored key => clearStored key
  end.

(** Calls made one after the other, each from a handler of its own: an
    exception ends the call that raised it, not the later ones. *)
Fixpoint perform_all (props : Props) (cs : list Call) (w : World) : World :=
  match cs with
  | [] => w
  | c :: cs => perform_all props cs (perform props c w).1
  end.

(** The entry for [key] in a plain key/value map after one call, when the
    writes of [store] are let through by [enabled]. *)
Definition write_step (enabled : option Options → bool) (key : string)
    (acc : option string) (c : Call) : option string :=
  match c with
  | Call_store storable options =>
      if enabled options && bool_decide (storable.1 = key)
      then Some storable.2 else acc
  | Call_getStored _ => acc
  | Call_clearStored k => if bool_decide (k = key) then None else acc
  end.

Definition last_write (enabled : option Options → bool) (key : string)
    (cs : list Call) (init : option string) : option string :=
  foldl (write_step enabled key) init cs.

(** The keys passed to [store] in a sequence of calls. *)
Fixpoint stored_keys (cs : list Call) : gset string :=
  match cs with
  | [] => ∅
  | Call_store storable _ :: cs => {[ storable.1 ]} ∪ stored_keys cs
  | _ :: cs => stored_keys cs
  end.

(** The number of calls in a sequence that write the address on a page:
    the [store] calls whose URL step is let through, and every
    [clearStored]. *)
Fixpoint url_writes (props : Props) (cs : list Call) : nat :=
  match cs with
  | [] => 0
  | Call_store _ options :: cs =>
      (if url_enabled props options then 1 else 0) + url_writes props cs
  | Call_getStored _ :: cs => url_writes props cs
  | Call_clearStored _ :: cs => 1 + url_writes props cs
  end.

(** * Properties *)

(** ** URLSearchParams *)

Section URLSearchParams_facts.

Import URLSearchParams.

Lemma sp_get_delete_eq name l : get name (delete name l) = None.
Proof.
  induction l as [|[n v] r IH]; simpl; [done|].
  destruct (decide (n = name)) as [->|Hne]; simpl; [done|].
  by rewrite decide_False.
Qed.

Lemma sp_get_delete_ne name name' l :
  name ≠ name' → get name' (delete name l) = get name' l.
Proof.
  intros Hne. induction l as [|[n v] r IH]; simpl; [done|].
  destruct (decide (n = name)) as [->|Hn]; simpl.
  - by rewrite decide_False.
  - destruct (decide (n = name')); done.
Qed.

Lemma sp_get_set_eq name value l : get name (set name value l) = Some value.
Proof.
  induction l as [|[n v] r IH]; simpl.
  - by rewrite decide_True.
  - destruct (decide (n = name)) as [->|Hn]; simpl.
    + by rewrite decide_True.
    + by rewrite decide_False.
Qed.

Lemma sp_get_set_ne name name' value l :
  name ≠ name' → get name' (set name value l) = get name' l.
Proof.
  intros Hne. induction l as [|[n v] r IH]; simpl.
  - by rewrite decide_False.
  - destruct (decide (n = name)) as [->|Hn]; simpl.
    + rewrite !decide_False by done. by apply sp_get_delete_ne.
    + destruct (decide (n = name')); done.
Qed.

Lemma sp_delete_idemp name l : delete name (delete name l) = delete name l.
Proof.
  induction l as [|[n v] r IH]; simpl; [done|].
  destruct (decide (n = name)) as [->|Hn]; simpl; [done|].
  rewrite decide_False by done. by rewrite IH.
Qed.

Lemma sp_set_idemp name value l :
  set name value (set name value l) = set name value l.
Proof.
  induction l as [|[n v] r IH]; simpl.
  - by rewrite decide_True.
  - destruct (decide (n = name)) as [->|Hn]; simpl.
    + rewrite decide_True by done. by rewrite sp_delete_idemp.
    + rewrite decide_False by done. by rewrite IH.
Qed.

End URLSearchParams_facts.

(** ** What each callback computes, with and without a page *)

Ltac run :=
  unfold store, getStored, clearStored, cleanup, when, new_URL_href,
    history_pushState, localStorage_setItem, localStorage_removeItem,
    localStorage_getItem, localStorage_delete, setStorage, put_window,
    the_window, typeof_window_defined, on_page, off_page,
    url_enabled, state_enabled, localStore_enabled, with_localStorage;
  unfold mbind, js_bind, mret, js_ret, mthrow, js_throw; simpl.

Lemma store_on_page props key value options win s :
  store props (key, value) options (on_page win s) =
  (let win1 := if url_enabled props options
               then pushState_on (URLSearchParams.set key value (location win)) win
               else win in
   let s1 := if state_enabled props options then <[key := value]> s else s in
   let win2 := if localStore_enabled props options
               then with_localStorage (<[key := value]> (localStorage win1)) win1
               else win1 in
   (on_page win2 s1, Normal tt)).
Proof.
  run.
  destruct (skipUrl props), (o_skipUrl _), (skipState props), (o_skipState _),
    (skipLocalStore props), (o_skipLocalStore _); reflexivity.
Qed.

Lemma store_off_page props key value options s :
  store props (key, value) options (off_page s) =
  (off_page (if state_enabled props options then <[key := value]> s else s),
   if localStore_enabled props options then Throw ReferenceError else Normal tt).
Proof.
  run.
  destruct (skipUrl props), (o_skipUrl _), (skipState props), (o_skipState _),
    (skipLocalStore props), (o_skipLocalStore _); reflexivity.
Qed.

Lemma getStored_on_page storage key win s :
  getStored storage key (on_page win s) =
  (on_page win s,
   Normal (of_lookup JNull (URLSearchParams.get key (location win)))).
Proof. reflexivity. Qed.

Lemma getStored_off_page storage key s :
  getStored storage key (off_page s) =
  (off_page s,
   Normal (js_or (js_or (property_read storage key) JUndefined) JNull)).
Proof. reflexivity. Qed.

Lemma clearStored_on_page key win s :
  clearStored key (on_page win s) =
  (on_page
     (with_localStorage (base.delete key (localStorage win))
        (pushState_on (URLSearchParams.delete key (location win)) win))
     (base.delete key s),
   Normal tt).
Proof. reflexivity. Qed.

Lemma clearStored_off_page key s :
  clearStored key (off_page s) = (off_page (base.delete key s), Normal tt).
Proof. reflexivity. Qed.

Lemma world_cases (w : World) :
  (∃ win s, w = on_page win s) ∨ (∃ s, w = off_page s).
Proof. destruct w as [[win|] s]; [left|right]; eauto. Qed.

Lemma forEach_skip {A} (l : list A) (w : World) :
  forEach l (λ _, when false (mthrow TypeError)) w = (w, Normal tt).
Proof. induction l as [|a r IH]; [done|]. simpl. run. exact IH. Qed.

(** The cleanup that React runs is the one of the mount render, whose
    [storage] has no key: it removes nothing, whatever was stored since. *)
Lemma unmount_on_page props win s :
  unmount props (on_page win s) =
  (on_page (if clearUrlParamsOnUnmount props
            then pushState_on (location win) win else win) s,
   Normal tt).
Proof.
  unfold unmount, mount_storage. run.
  destruct (clearUrlParamsOnUnmount props); reflexivity.
Qed.

Lemma unmount_off_page props s :
  unmount props (off_page s) = (off_page s, Normal tt).
Proof. reflexivity. Qed.

(** Even a cleanup that saw the latest [storage] would not clear durable
    storage: with a key to clean and [clearLocalStoreOnUnmount] set, its
    first call of [window.localStorage.delete] raises. *)
Lemma cleanup_live_throws props storage win s :
  storage ≠ ∅ →
  clearLocalStoreOnUnmount props = true →
  ∃ win', cleanup props storage (on_page win s) = (on_page win' s, Throw TypeError)
          ∧ localStorage win' = localStorage win.
Proof.
  intros Hne Hclear.
  assert (∃ k r, Object_keys storage = k :: r) as (k & r & Hk).
  { unfold Object_keys. destruct (map_to_list storage) as [|[k v] r] eqn:E.
    - by apply map_to_list_empty_iff in E.
    - by exists k, (r.*1). }
  unfold cleanup. rewrite Hk, Hclear. run.
  destruct (clearUrlParamsOnUnmount props); simpl; eauto.
Qed.

(** ** Reading *)

(** C1 (the code departs from the claim).  On a page whose address has no
    parameter [k], with [k] held both by the state object and by durable
    storage, [getStored("k")] answers [null]: the page branch returns the
    URL reading at once and never falls through to the other two places.
    This holds whichever [storage] the callback closes over. *)
Theorem getStored_on_page_never_falls_through :
  ∀ storage : gmap string string,
    let w := on_page (mkWindow [("other", "1")] [] [] {["k" := "B"]})
                     {["k" := "A"]} in
    in_url "k" w = Some None
    ∧ in_state "k" w = Some "A"
    ∧ in_localStorage "k" w = Some (Some "B")
    ∧ getStored storage "k" w = (w, Normal JNull).
Proof. intros storage w. repeat split; reflexivity. Qed.

(** In a page the callback is the URL reading, nothing else. *)
Lemma getStored_is_url_reading storage key win s :
  (getStored storage key (on_page win s)).2 =
  Normal (of_lookup JNull (URLSearchParams.get key (location win))).
Proof. reflexivity. Qed.

(** Without a page, a callback whose [storage] has no own property [key]
    answers what [Object.prototype] has under that name, else [null]; no
    durable storage is read. *)
Lemma getStored_absent_off_page storage key s :
  storage !! key = None →
  getStored storage key (off_page s) =
  (off_page s,
   Normal (if bool_decide (key ∈ Object_prototype_names)
           then JInherited key else JNull)).
Proof.
  intros H. rewrite getStored_off_page. unfold property_read, prototype_read.
  rewrite H. by case_bool_decide.
Qed.

(** So does the memoised callback, for every key: it reads the [storage]
    of the mount render. *)
Lemma ctx_getStored_off_page key s :
  ctx_getStored key (off_page s) =
  (off_page s,
   Normal (if bool_decide (key ∈ Object_prototype_names)
           then JInherited key else JNull)).
Proof. apply getStored_absent_off_page, lookup_empty. Qed.

(** ** Writing then reading *)

(** In a page, with no flag set, what [store] wrote is what [getStored]
    reads back. *)
Lemma store_then_getStored_on_page props options storage key value win s :
  url_enabled props options = true →
  getStored storage key (store props (key, value) options (on_page win s)).1
  = ((store props (key, value) options (on_page win s)).1, Normal (JString value)).
Proof.
  intros Hurl. rewrite store_on_page, Hurl. cbn zeta.
  destruct (localStore_enabled props options); simpl;
    rewrite getStored_on_page; simpl; by rewrite sp_get_set_eq.
Qed.

(** C2 (the code departs from the claim).  Without a page and with every
    flag false, [store(["k","v"])] records the pair in the state object and
    then raises [ReferenceError] at [window.localStorage.setItem]; the
    following [getStored("k")] answers [null], not ["v"]. *)
Theorem store_then_getStored_off_page :
  let props := mkProps false false false false false in
  let r := store props ("k", "v") None (off_page mount_storage) in
  r.2 = Throw ReferenceError
  ∧ in_state "k" r.1 = Some "v"
  ∧ ctx_getStored "k" r.1 = (r.1, Normal JNull).
Proof. repeat split; reflexivity. Qed.

(** ** Teardown *)

(** C3 (the code departs from the claim).  Mount on a fresh page, call
    [store(["x","1"])], unmount.
    - With clearUrlParamsOnUnmount set and clearLocalStoreOnUnmount unset,
      the address still carries [x=1] after the teardown (which pushed one
      more history entry for the very same address); durable storage keeps
      [x=1].
    - With clearLocalStoreOnUnmount set as well, durable storage still
      keeps [x=1]: the teardown has no key to clean.
    - A cleanup closing over the latest [storage] instead would remove [x]
      from the address but raise [TypeError] at [localStorage.delete], and
      durable storage would keep [x=1] all the same. *)
Theorem unmount_after_store_removes_nothing :
  let w0 := on_page (mkWindow [] [] [] ∅) mount_storage in
  let p1 := mkProps false false false true false in
  let p2 := mkProps false false false true true in
  let w1 := (store p1 ("x", "1") None w0).1 in
  let w2 := (store p2 ("x", "1") None w0).1 in
  (in_state "x" w1 = Some "1"
   ∧ (unmount p1 w1).2 = Normal tt
   ∧ in_url "x" (unmount p1 w1).1 = Some (Some "1")
   ∧ in_localStorage "x" (unmount p1 w1).1 = Some (Some "1"))
  ∧ ((unmount p2 w2).2 = Normal tt
     ∧ in_url "x" (unmount p2 w2).1 = Some (Some "1")
     ∧ in_localStorage "x" (unmount p2 w2).1 = Some (Some "1"))
  ∧ ((cleanup p2 (hook_storage w2) w2).2 = Throw TypeError
     ∧ in_url "x" (cleanup p2 (hook_storage w2) w2).1 = Some None
     ∧ in_localStorage "x" (cleanup p2 (hook_storage w2) w2).1 = Some (Some "1")).
Proof. vm_compute. repeat split; reflexivity. Qed.

(** ** Clearing *)




(** ** Without a page *)

(** C5 (the code departs from the claim).  Without a page, unless the
    durable-storage step is suppressed, [store] raises [ReferenceError]:
    its [window.localStorage.setItem] is not guarded by the
    [typeof window] test that guards its URL step. *)
Theorem store_off_page_throws props storable options s :
  localStore_enabled props options = true →
  (store props storable options (off_page s)).2 = Throw ReferenceError.
Proof.
  intros H. destruct storable as [key value].
  rewrite store_off_page. simpl. by rewrite H.
Qed.

Lemma store_off_page_throws_witness :
  localStore_enabled (mkProps false false false false false) None = true
  ∧ (store (mkProps false false false false false) ("k", "v") None
       (off_page ∅)).2 = Throw ReferenceError.
Proof.
  split; [reflexivity|].
  apply (store_off_page_throws (mkProps false false false false false)
           ("k", "v") None ∅).
  reflexivity.
Defined.

(** With the durable-storage step suppressed, [store] without a page does
    complete, and performs its state step alone. *)
Lemma store_off_page_suppressed props key value options s :
  localStore_enabled props options = false →
  store props (key, value) options (off_page s) =
  (off_page (if state_enabled props options then <[key := value]> s else s),
   Normal tt).
Proof. intros H. rewrite store_off_page. by rewrite H. Qed.

(** ** Flags *)

(** C6, as stated, fails: with [skipUrl] set on the provider, a call
    passing [skipUrl: false] does not write the URL; address and history
    stay as they were, while the two other steps run. *)
Lemma per_call_false_does_not_reenable :
  let props := mkProps true false false false false in
  let options := Some (mkOptions false false false) in
  let w := on_page (mkWindow [] [] [] ∅) mount_storage in
  let r := store props ("k", "v") options w in
  r.2 = Normal tt
  ∧ in_url "k" r.1 = Some None
  ∧ in_url "k" r.1 ≠ Some (Some "v")
  ∧ window r.1 = (with_localStorage {["k" := "v"]} <$> window w)
  ∧ in_state "k" r.1 = Some "v"
  ∧ in_localStorage "k" r.1 = Some (Some "v").
Proof. split_and!; try reflexivity. discriminate. Qed.

(** C6, amended.  On a page, each step of [store] runs exactly when
    neither the provider's flag nor the per-call flag of that step is set:
    a per-call flag can suppress a step the provider leaves on, and cannot
    turn on a step the provider suppresses.  A step that does not run
    leaves its place as it was. *)
Theorem store_steps_gated props key value options win s :
  let w' := (store props (key, value) options (on_page win s)).1 in
  (location <$> window w') =
    Some (if negb (skipUrl props) && negb (o_skipUrl (nullish_options options))
          then URLSearchParams.set key value (location win)
          else location win)
  ∧ (back <$> window w') =
    Some (if negb (skipUrl props) && negb (o_skipUrl (nullish_options options))
          then location win :: back win
          else back win)
  ∧ hook_storage w' =
    (if negb (skipState props) && negb (o_skipState (nullish_options options))
     then <[key := value]> s
     else s)
  ∧ (localStorage <$> window w') =
    Some (if negb (skipLocalStore props)
             && negb (o_skipLocalStore (nullish_options options))
          then <[key := value]> (localStorage win)
          else localStorage win).
Proof.
  cbn zeta. rewrite store_on_page.
  unfold url_enabled, state_enabled, localStore_enabled.
  destruct (skipUrl props), (o_skipUrl _), (skipState props), (o_skipState _),
    (skipLocalStore props), (o_skipLocalStore _); simpl; done.
Qed.

(** ** History *)

(** C7, as stated, fails: on a page whose history has one entry, a [store]
    that writes the URL leaves a history of two entries, and so does
    [clearStored]. *)
Lemma url_write_grows_history :
  let props := mkProps false false false false false in
  let w := on_page (mkWindow [] [] [] ∅) mount_storage in
  (history_length <$> window w) = Some 1
  ∧ (history_length <$> window (store props ("k", "v") None w).1) = Some 2
  ∧ (history_length <$> window (clearStored "k" w).1) = Some 2
  ∧ (history_length <$> window (store props ("k", "v") None w).1)
    ≠ (history_length <$> window w).
Proof. split_and!; try reflexivity. discriminate. Qed.

(** C7, amended.  Every URL write of [store] and of [clearStored] goes
    through [history.pushState]: the address that was shown becomes the
    nearest older entry, the entries ahead are dropped, and the history
    holds one entry more than the entries up to the current one.  So on a
    page showing the newest entry the history grows by one. *)
Theorem url_write_pushes_entry props key value options win s :
  url_enabled props options = true →
  (∃ win', window (store props (key, value) options (on_page win s)).1 = Some win'
     ∧ location win' = URLSearchParams.set key value (location win)
     ∧ back win' = location win :: back win
     ∧ forward win' = []
     ∧ history_length win' = S (S (length (back win))))
  ∧ (∃ win', window (clearStored key (on_page win s)).1 = Some win'
     ∧ location win' = URLSearchParams.delete key (location win)
     ∧ back win' = location win :: back win
     ∧ forward win' = []
     ∧ history_length win' = S (S (length (back win)))).
Proof.
  intros Hurl. split.
  - rewrite store_on_page, Hurl. cbn zeta.
    destruct (localStore_enabled props options); simpl;
      eexists; (split; [reflexivity|]); unfold history_length; simpl;
      split_and!; try done; lia.
  - rewrite clearStored_on_page. simpl.
    eexists; (split; [reflexivity|]); unfold history_length; simpl.
    split_and!; try done; lia.
Qed.

Lemma url_write_pushes_entry_witness :
  url_enabled (mkProps false false false false false) None = true
  ∧ ∃ win',
      window (store (mkProps false false false false false) ("k", "v") None
                (on_page (mkWindow [("a", "1")] [] [] ∅) ∅)).1 = Some win'
      ∧ location win' = [("a", "1"); ("k", "v")]
      ∧ history_length win' = 2.
Proof.
  split; [reflexivity|].
  destruct (url_write_pushes_entry (mkProps false false false false false)
              "k" "v" None (mkWindow [("a", "1")] [] [] ∅) ∅ eq_refl)
    as [(win' & Hw & Hl & _ & _ & Hh) _].
  exists win'. split_and!; [exact Hw|exact Hl|exact Hh].
Defined.

(** ** Suppressing durable storage *)

(** C8.  With the durable-storage step suppressed (on the provider or in
    the call), [store] completes normally in every world and leaves
    durable storage as it was, for every key; the state object holds
    [value] under [key] when the state step is not suppressed, and on a
    page the query parameter [key] reads [value] when the URL step is not
    suppressed. *)
Theorem store_skipLocalStore props key value options w :
  localStore_enabled props options = false →
  let r := store props (key, value) options w in
  r.2 = Normal tt
  ∧ (localStorage <$> window r.1) = (localStorage <$> window w)
  ∧ in_localStorage key r.1 = in_localStorage key w
  ∧ (state_enabled props options = true → in_state key r.1 = Some value)
  ∧ (url_enabled props options = true →
     ∀ win, window w = Some win → in_url key r.1 = Some (Some value)).
Proof.
  intros Hls.
  destruct (world_cases w) as [(win & s & ->)|(s & ->)]; cbn zeta.
  - rewrite store_on_page, Hls. cbn zeta. simpl. split_and!; try done.
    + by destruct (url_enabled props options).
    + unfold in_localStorage. simpl. by destruct (url_enabled props options).
    + intros ->. apply lookup_insert_eq.
    + intros -> win' _. unfold in_url. simpl. by rewrite sp_get_set_eq.
  - rewrite store_off_page, Hls. simpl. split_and!; try done.
    intros ->. apply lookup_insert_eq.
Qed.

Lemma store_skipLocalStore_witness :
  localStore_enabled (mkProps false true false false false) None = false
  ∧ (store (mkProps false true false false false) ("k", "v") None
       (on_page (mkWindow [] [] [] {["k" := "old"]}) ∅)).2 = Normal tt
  ∧ in_localStorage "k"
      (store (mkProps false true false false false) ("k", "v") None
         (on_page (mkWindow [] [] [] {["k" := "old"]}) ∅)).1
    = in_localStorage "k" (on_page (mkWindow [] [] [] {["k" := "old"]}) ∅)
  ∧ in_state "k"
      (store (mkProps false true false false false) ("k", "v") None
         (on_page (mkWindow [] [] [] {["k" := "old"]}) ∅)).1 = Some "v"
  ∧ in_url "k"
      (store (mkProps false true false false false) ("k", "v") None
         (on_page (mkWindow [] [] [] {["k" := "old"]}) ∅)).1 = Some (Some "v").
Proof.
  destruct (store_skipLocalStore (mkProps false true false false false)
              "k" "v" None (on_page (mkWindow [] [] [] {["k" := "old"]}) ∅)
              eq_refl)
    as (Hr & _ & Hls & Hst & Hurl).
  split; [reflexivity|].
  split; [exact Hr|].
  split; [exact Hls|].
  split; [exact (Hst eq_refl)|].
  exact (Hurl eq_refl _ eq_refl).
Defined.

(** ** Idempotence *)

(** C9.  Under fixed props and options, a second [store] of the same pair
    completes as the first did and leaves the same query parameters, state
    object and durable storage.  (The session history is not part of that
    state: each call that writes the URL pushes an entry.) *)
Theorem store_idempotent props key value options w :
  let once := store props (key, value) options w in
  let twice := store props (key, value) options once.1 in
  observable twice.1 = observable once.1 ∧ twice.2 = once.2.
Proof.
  destruct (world_cases w) as [(win & s & ->)|(s & ->)]; cbn zeta.
  - rewrite (store_on_page props key value options win s). cbn zeta.
    destruct (url_enabled props options) eqn:Hu,
      (state_enabled props options) eqn:Hs,
      (localStore_enabled props options) eqn:Hl;
      cbn [fst snd]; rewrite store_on_page, Hu, Hs, Hl; cbn zeta;
      unfold observable; simpl;
      rewrite ?sp_set_idemp, ?insert_insert_eq; done.
  - rewrite (store_off_page props key value options s).
    destruct (state_enabled props options) eqn:Hs,
      (localStore_enabled props options) eqn:Hl;
      cbn [fst snd]; rewrite store_off_page, Hs, Hl;
      unfold observable; simpl; rewrite ?insert_insert_eq; done.
Qed.

(** ** Other keys *)

(** C10.  For distinct keys, [store([key, value])] and [clearStored(key)]
    leave what the query parameters, the state object and durable storage
    hold for [key'] as it was.  The state object of the world before the
    call is a value of its own, which the call does not alter. *)
Theorem other_key_untouched props key value options key' w :
  key ≠ key' →
  let w1 := (store props (key, value) options w).1 in
  let w2 := (clearStored key w).1 in
  (in_url key' w1 = in_url key' w
   ∧ in_state key' w1 = in_state key' w
   ∧ in_localStorage key' w1 = in_localStorage key' w)
  ∧ (in_url key' w2 = in_url key' w
     ∧ in_state key' w2 = in_state key' w
     ∧ in_localStorage key' w2 = in_localStorage key' w).
Proof.
  intros Hne.
  destruct (world_cases w) as [(win & s & ->)|(s & ->)]; cbn zeta.
  - rewrite store_on_page, clearStored_on_page. cbn zeta.
    unfold in_url, in_state, in_localStorage.
    destruct (url_enabled props options), (state_enabled props options),
      (localStore_enabled props options); simpl;
      rewrite ?sp_get_set_ne, ?sp_get_delete_ne, ?lookup_insert_ne,
        ?lookup_delete_ne by done; done.
  - rewrite store_off_page, clearStored_off_page.
    unfold in_url, in_state, in_localStorage.
    destruct (state_enabled props options); simpl;
      rewrite ?lookup_insert_ne, ?lookup_delete_ne by done; done.
Qed.

Lemma other_key_untouched_witness :
  "a" ≠ "b"
  ∧ in_state "b"
      (store (mkProps false false false false false) ("a", "1") None
         (on_page (mkWindow [("b", "2")] [] [] {["b" := "2"]}) {["b" := "2"]})).1
    = in_state "b"
        (on_page (mkWindow [("b", "2")] [] [] {["b" := "2"]}) {["b" := "2"]})
  ∧ in_url "b"
      (clearStored "a"
         (on_page (mkWindow [("b", "2")] [] [] {["b" := "2"]}) {["b" := "2"]})).1
    = in_url "b"
        (on_page (mkWindow [("b", "2")] [] [] {["b" := "2"]}) {["b" := "2"]}).
Proof.
  assert (Hne : "a" ≠ "b") by discriminate.
  destruct (other_key_untouched (mkProps false false false false false)
              "a" "1" None "b"
              (on_page (mkWindow [("b", "2")] [] [] {["b" := "2"]}) {["b" := "2"]})
              Hne)
    as [(_ & H2 & _) (H4 & _ & _)].
  split; [exact Hne|]. split; [exact H2|exact H4].
Defined.

(** * Further properties of the callbacks *)

#[local] Set Warnings "-clear-no-such-hyp".

(** ** The query parameters as a list *)

Section URLSearchParams_lists.

Import URLSearchParams.

Lemma sp_delete_filter name (l : list (string * string)) :
  delete name l = filter (λ p, p.1 ≠ name) l.
Proof.
  induction l as [|[n v] r IH]; [done|]. cbn [delete].
  destruct (decide (n = name)) as [->|Hn].
  - by rewrite filter_cons_False by (simpl; auto).
  - rewrite filter_cons_True by done. by rewrite IH.
Qed.

Lemma sp_delete_absent name l : get name l = None → delete name l = l.
Proof.
  induction l as [|[n v] r IH]; simpl; [done|].
  destruct (decide (n = name)); [done|]. intros H. by rewrite IH.
Qed.

Lemma sp_delete_set name value l : delete name (set name value l) = delete name l.
Proof.
  induction l as [|[n v] r IH]; simpl.
  - by rewrite decide_True.
  - destruct (decide (n = name)) as [->|Hn]; simpl.
    + rewrite decide_True by done. apply sp_delete_idemp.
    + rewrite decide_False by done. by rewrite IH.
Qed.

Lemma sp_set_set name v1 v2 l : set name v2 (set name v1 l) = set name v2 l.
Proof.
  induction l as [|[n v] r IH]; simpl.
  - by rewrite decide_True.
  - destruct (decide (n = name)) as [->|Hn]; simpl.
    + rewrite decide_True by done. by rewrite sp_delete_idemp.
    + rewrite decide_False by done. by rewrite IH.
Qed.

Lemma sp_set_others name value (l : list (string * string)) :
  filter (λ p, p.1 ≠ name) (set name value l : list (string * string))
  = filter (λ p, p.1 ≠ name) l.
Proof. by rewrite <- !sp_delete_filter, sp_delete_set. Qed.

Lemma sp_delete_own name (l : list (string * string)) :
  filter (λ p, p.1 = name) (delete name l : list (string * string)) = [].
Proof.
  induction l as [|[n v] r IH]; [done|]. cbn [delete].
  destruct (decide (n = name)) as [->|Hn]; [done|].
  by rewrite filter_cons_False.
Qed.

Lemma sp_set_own name value (l : list (string * string)) :
  filter (λ p, p.1 = name) (set name value l : list (string * string))
  = [(name, value)].
Proof.
  induction l as [|[n v] r IH]; cbn [set].
  - by rewrite filter_cons_True.
  - destruct (decide (n = name)) as [->|Hn].
    + rewrite filter_cons_True by done. by rewrite sp_delete_own.
    + by rewrite filter_cons_False.
Qed.

Lemma sp_foldl_delete keys (l : list (string * string)) :
  foldl (λ u key, delete key u) l keys
  = filter (λ p, p.1 ∉ keys) (l : list (string * string)).
Proof.
  revert l. induction keys as [|k keys IH]; intros l; cbn [foldl].
  - induction l as [|q l IHl]; [done|].
    rewrite filter_cons_True by apply not_elem_of_nil. by rewrite <- IHl.
  - rewrite IH, sp_delete_filter, list_filter_filter.
    apply list_filter_iff. intros [n v]. simpl.
    rewrite not_elem_of_cons. tauto.
Qed.

End URLSearchParams_lists.

Lemma elem_of_Object_keys (storage : gmap string string) key :
  key ∈ Object_keys storage ↔ is_Some (storage !! key).
Proof.
  unfold Object_keys. rewrite list_elem_of_fmap. split.
  - intros ([k v] & -> & Hin). apply elem_of_map_to_list in Hin. by exists v.
  - intros [v Hv]. exists (key, v). split; [done|]. by apply elem_of_map_to_list.
Qed.

Lemma Object_keys_empty (storage : gmap string string) :
  Object_keys storage = [] ↔ storage = ∅.
Proof.
  unfold Object_keys. split.
  - intros H. apply fmap_nil_inv in H. by apply map_to_list_empty_iff.
  - intros ->. by rewrite map_to_list_empty.
Qed.

(** ** Reading never writes *)

(** X1.  [getStored] is a pure read: whichever [storage] it closes over,
    in every world it completes normally and leaves the world as it was.
    On a page its answer is read off the address alone: the value of the
    first pair named [key] (possibly the empty string), else [null]. *)
Theorem getStored_reads_only storage key w :
  ∃ v, getStored storage key w = (w, Normal v)
       ∧ (∀ win, window w = Some win →
            v = of_lookup JNull (URLSearchParams.get key (location win))).
Proof.
  destruct (world_cases w) as [(win & s & ->)|(s & ->)].
  - rewrite getStored_on_page. eexists. split; [done|].
    by intros win' [= <-].
  - rewrite getStored_off_page. eexists. split; [done|]. intros win' H.
    discriminate H.
Qed.

(** X2.  Without a page [getStored] answers from the [storage] it closes
    over and from nothing else: the own entry for [key] when it is a
    non-empty string, [null] when the own entry is the empty string; when
    there is no own entry, the member that [Object.prototype] has under
    that name if there is one, else [null].  Neither the state cell nor
    any durable storage is consulted. *)
Theorem getStored_off_page_value storage key s :
  getStored storage key (off_page s) =
  (off_page s,
   Normal match storage !! key with
          | Some (String a r) => JString (String a r)
          | Some EmptyString => JNull
          | None => if bool_decide (key ∈ Object_prototype_names)
                    then JInherited key else JNull
          end).
Proof.
  rewrite getStored_off_page. unfold property_read, prototype_read.
  destruct (storage !! key) as [[|a r]|]; [reflexivity..|].
  by case_bool_decide.
Qed.

(** ** Completion of [store] and [clearStored] *)

(** X3.  Without a page, [store] completes normally exactly when its
    durable-storage step is suppressed, and raises [ReferenceError]
    otherwise.  Either way its state step has been applied as its own
    flags say, and nothing else has changed: the exception comes after
    the state update. *)
Theorem store_off_page_completes_iff props key value options s :
  let r := store props (key, value) options (off_page s) in
  (r.2 = Normal tt ↔ localStore_enabled props options = false)
  ∧ (r.2 = Throw ReferenceError ↔ localStore_enabled props options = true)
  ∧ r.1 = off_page (if state_enabled props options
                    then <[key := value]> s else s).
Proof.
  cbn zeta. rewrite store_off_page. simpl.
  destruct (localStore_enabled props options); split_and!; done.
Qed.

(** X4.  [clearStored] completes normally in every world, page or not,
    and clearing the same key again changes nothing in the query
    parameters, the state object or durable storage. *)
Theorem clearStored_idempotent key w :
  (clearStored key w).2 = Normal tt
  ∧ observable (clearStored key (clearStored key w).1).1
    = observable (clearStored key w).1.
Proof.
  destruct (world_cases w) as [(win & s & ->)|(s & ->)].
  - rewrite (clearStored_on_page key win s). cbn [fst snd].
    rewrite clearStored_on_page. unfold observable. simpl.
    by rewrite sp_delete_idemp, !delete_delete_eq.
  - rewrite (clearStored_off_page key s). cbn [fst snd].
    rewrite clearStored_off_page. unfold observable. simpl.
    by rewrite delete_delete_eq.
Qed.

(** ** Composing writes *)

(** X5.  Last write wins in the address and in the state object: under
    fixed props and options, storing [v1] and then [v2] under the same key
    leaves the query parameters and the state object as storing [v2]
    alone does, in every world. *)
Theorem store_last_write_wins props key v1 v2 options w :
  let first := store props (key, v1) options w in
  let second := store props (key, v2) options first.1 in
  (location <$> window second.1)
  = (location <$> window (store props (key, v2) options w).1)
  ∧ hook_storage second.1 = hook_storage (store props (key, v2) options w).1.
Proof.
  destruct (world_cases w) as [(win & s & ->)|(s & ->)]; cbn zeta.
  - rewrite !(store_on_page props key _ options win s). cbn zeta.
    destruct (url_enabled props options) eqn:Hu,
      (state_enabled props options) eqn:Hs,
      (localStore_enabled props options) eqn:Hl;
      cbn [fst snd]; rewrite store_on_page, Hu, Hs, Hl; cbn zeta; simpl;
      rewrite ?sp_set_set, ?insert_insert_eq; done.
  - rewrite !(store_off_page props key _ options s).
    destruct (state_enabled props options) eqn:Hs;
      cbn [fst snd]; rewrite store_off_page, Hs; simpl;
      rewrite ?insert_insert_eq; done.
Qed.

Lemma clearStored_erases_store props key value options w :
  observable (clearStored key (store props (key, value) options w).1).1
  = observable (clearStored key w).1.
Proof.
  destruct (world_cases w) as [(win & s & ->)|(s & ->)].
  - rewrite store_on_page. cbn zeta.
    destruct (url_enabled props options), (state_enabled props options),
      (localStore_enabled props options);
      cbn [fst]; rewrite !clearStored_on_page; unfold observable; simpl;
      rewrite ?sp_delete_set, ?delete_insert_eq; done.
  - rewrite store_off_page. cbn [fst].
    rewrite !clearStored_off_page. unfold observable. simpl.
    destruct (state_enabled props options); rewrite ?delete_insert_eq; done.
Qed.

(** X6.  [clearStored] erases what [store] did for the key, whatever the
    flags of the [store]: clearing after a store leaves the query
    parameters, the state object and durable storage as clearing alone
    does. *)
Theorem clearStored_after_store props key value options w :
  observable (clearStored key (store props (key, value) options w).1).1
  = observable (clearStored key w).1.
Proof. apply clearStored_erases_store. Qed.

(** X7.  Round trip on a fresh key: when [key] is in none of the three
    places, [store] followed by [clearStored] brings the query parameters,
    the state object and durable storage back to what they were. *)
Theorem store_clearStored_round_trip props key value options w :
  (∀ win, window w = Some win →
     URLSearchParams.get key (location win) = None
     ∧ localStorage win !! key = None) →
  hook_storage w !! key = None →
  observable (clearStored key (store props (key, value) options w).1).1
  = observable w.
Proof.
  intros Hwin Hs. rewrite clearStored_erases_store.
  destruct (world_cases w) as [(win & s & ->)|(s & ->)].
  - destruct (Hwin win eq_refl) as [Hu Hl].
    rewrite clearStored_on_page. unfold observable. simpl in *.
    by rewrite sp_delete_absent, !delete_id.
  - rewrite clearStored_off_page. unfold observable. simpl in *.
    by rewrite delete_id.
Qed.

Lemma store_clearStored_round_trip_witness :
  observable
    (clearStored "k"
       (store (mkProps false false false false false) ("k", "v") None
          (on_page (mkWindow [("a", "1")] [] [] {["b" := "2"]}) ∅)).1).1
  = observable (on_page (mkWindow [("a", "1")] [] [] {["b" := "2"]}) ∅).
Proof.
  apply (store_clearStored_round_trip (mkProps false false false false false)
           "k" "v" None (on_page (mkWindow [("a", "1")] [] [] {["b" := "2"]}) ∅)).
  - intros win [= <-]. split; reflexivity.
  - reflexivity.
Defined.

(** ** The address after a write *)

(** X8.  On a page, a [store] whose URL step runs leaves exactly one pair
    named [key] in the query, carrying [value], and keeps the pairs of
    every other name as they were, in order and with their duplicates.
    [clearStored] drops every pair named [key] and keeps the others the
    same way. *)
Theorem url_write_keeps_other_pairs props key value options win s :
  url_enabled props options = true →
  (∃ win', window (store props (key, value) options (on_page win s)).1 = Some win'
     ∧ filter (λ p, p.1 = key) (location win' : list (string * string))
       = [(key, value)]
     ∧ filter (λ p, p.1 ≠ key) (location win' : list (string * string))
       = filter (λ p, p.1 ≠ key) (location win : list (string * string)))
  ∧ (∃ win', window (clearStored key (on_page win s)).1 = Some win'
     ∧ (location win' : list (string * string))
       = filter (λ p, p.1 ≠ key) (location win : list (string * string))).
Proof.
  intros Hu. split.
  - rewrite store_on_page, Hu. cbn zeta.
    destruct (localStore_enabled props options); simpl;
      eexists; (split; [reflexivity|]); simpl;
      split; [apply sp_set_own|apply sp_set_others
             |apply sp_set_own|apply sp_set_others].
  - rewrite clearStored_on_page. simpl. eexists. split; [reflexivity|].
    simpl. apply sp_delete_filter.
Qed.

Lemma url_write_keeps_other_pairs_witness :
  url_enabled (mkProps false false false false false) None = true
  ∧ ∃ win',
      window (store (mkProps false false false false false) ("k", "v") None
                (on_page (mkWindow [("k", "1"); ("a", "1"); ("k", "2"); ("a", "2")]
                            [] [] ∅) ∅)).1 = Some win'
      ∧ filter (λ p, p.1 = "k") (location win' : list (string * string))
        = [("k", "v")]
      ∧ filter (λ p, p.1 ≠ "k") (location win' : list (string * string))
        = [("a", "1"); ("a", "2")].
Proof.
  split; [reflexivity|].
  destruct (url_write_keeps_other_pairs (mkProps false false false false false)
              "k" "v" None
              (mkWindow [("k", "1"); ("a", "1"); ("k", "2"); ("a", "2")] [] [] ∅)
              ∅ eq_refl)
    as [(win' & Hw & Hown & Hothers) _].
  exists win'. split; [exact Hw|]. split; [exact Hown|exact Hothers].
Defined.

(** ** The cleanup closure of a render *)

(** X9.  The cleanup created by a render whose [storage] is given, run on
    a page with clearUrlParamsOnUnmount set and clearLocalStoreOnUnmount
    unset, completes normally and pushes an address from which exactly the
    pairs named by a key of [storage] are gone; the other pairs, durable
    storage and the state cell are kept. *)
Theorem cleanup_clears_url props storage win s :
  clearUrlParamsOnUnmount props = true →
  clearLocalStoreOnUnmount props = false →
  cleanup props storage (on_page win s) =
  (on_page
     (pushState_on
        (filter (λ p, storage !! p.1 = None)
           (location win : list (string * string)))
        win)
     s,
   Normal tt).
Proof.
  intros Hu Hl. unfold cleanup. rewrite Hu, Hl. run.
  rewrite forEach_skip. f_equal. unfold on_page. do 3 f_equal.
  rewrite sp_foldl_delete. apply list_filter_iff. intros [n v]. simpl.
  rewrite elem_of_Object_keys, <- eq_None_not_Some. done.
Qed.

Lemma cleanup_clears_url_witness :
  cleanup (mkProps false false false true false) {["x" := "1"]}
    (on_page (mkWindow [("x", "1"); ("a", "b"); ("x", "2")] [] []
                {["x" := "1"]}) {["x" := "1"]})
  = (on_page (mkWindow [("a", "b")] [[("x", "1"); ("a", "b"); ("x", "2")]] []
                {["x" := "1"]}) {["x" := "1"]},
     Normal tt).
Proof.
  rewrite (cleanup_clears_url (mkProps false false false true false)
             {["x" := "1"]}
             (mkWindow [("x", "1"); ("a", "b"); ("x", "2")] [] [] {["x" := "1"]})
             {["x" := "1"]} eq_refl eq_refl).
  reflexivity.
Defined.

(** X10.  With clearUrlParamsOnUnmount unset, the deletions of the cleanup
    are made on a copy of the address that is dropped: when moreover
    clearLocalStoreOnUnmount is unset, the cleanup of any render changes
    nothing, in any world, and completes normally. *)
Theorem cleanup_without_flags_is_noop props storage w :
  clearUrlParamsOnUnmount props = false →
  clearLocalStoreOnUnmount props = false →
  cleanup props storage w = (w, Normal tt).
Proof.
  intros Hu Hl. unfold cleanup. rewrite Hu, Hl.
  destruct w as [[win|] s]; run; by rewrite forEach_skip.
Qed.

Lemma cleanup_without_flags_is_noop_witness :
  cleanup (mkProps false false false false false) {["x" := "1"]}
    (on_page (mkWindow [("x", "1")] [] [] {["x" := "1"]}) {["x" := "1"]})
  = (on_page (mkWindow [("x", "1")] [] [] {["x" := "1"]}) {["x" := "1"]},
     Normal tt).
Proof.
  apply (cleanup_without_flags_is_noop (mkProps false false false false false));
    reflexivity.
Defined.

(** X11.  With clearLocalStoreOnUnmount set, the cleanup of a render whose
    [storage] has a key never removes anything from durable storage: it
    raises at its first [window.localStorage.delete], [TypeError] on a
    page and [ReferenceError] without one, and durable storage and the
    state cell are as before. *)
Theorem cleanup_clearLocalStore_throws props storage w :
  storage ≠ ∅ →
  clearLocalStoreOnUnmount props = true →
  (cleanup props storage w).2 =
    Throw (if bool_decide (is_Some (window w)) then TypeError else ReferenceError)
  ∧ (localStorage <$> window (cleanup props storage w).1)
    = (localStorage <$> window w)
  ∧ hook_storage (cleanup props storage w).1 = hook_storage w.
Proof.
  intros Hne Hl.
  destruct (Object_keys storage) as [|k r] eqn:Hk.
  { by apply Object_keys_empty in Hk. }
  unfold cleanup. rewrite Hk, Hl.
  destruct w as [[win|] s]; run;
    destruct (clearUrlParamsOnUnmount props); simpl; done.
Qed.

Lemma cleanup_clearLocalStore_throws_witness :
  (cleanup (mkProps false false false false true) {["x" := "1"]}
     (on_page (mkWindow [] [] [] {["x" := "1"]}) {["x" := "1"]})).2
  = Throw TypeError
  ∧ (localStorage <$>
       window (cleanup (mkProps false false false false true) {["x" := "1"]}
                 (on_page (mkWindow [] [] [] {["x" := "1"]}) {["x" := "1"]})).1)
    = Some {["x" := "1"]}.
Proof.
  assert (Hne : ({["x" := "1"]} : gmap string string) ≠ ∅)
    by apply insert_non_empty.
  destruct (cleanup_clearLocalStore_throws
              (mkProps false false false false true) {["x" := "1"]}
              (on_page (mkWindow [] [] [] {["x" := "1"]}) {["x" := "1"]})
              Hne eq_refl) as (H1 & H2 & _).
  split; [exact H1|exact H2].
Defined.

(** ** What the teardown really does *)

(** X12.  The cleanup that runs at unmount is the one of the mount render,
    whose [storage] is empty: in every world and under every props it
    completes normally and leaves the query parameters, the state object
    and durable storage as they are.  Its only effect, on a page with
    clearUrlParamsOnUnmount set, is to push one history entry for the
    address already shown. *)
Theorem unmount_changes_nothing props w :
  (unmount props w).2 = Normal tt
  ∧ observable (unmount props w).1 = observable w
  ∧ (back <$> window (unmount props w).1)
    = ((λ win, if clearUrlParamsOnUnmount props
               then location win :: back win else back win) <$> window w).
Proof.
  destruct (world_cases w) as [(win & s & ->)|(s & ->)].
  - rewrite unmount_on_page. unfold observable. simpl.
    destruct (clearUrlParamsOnUnmount props); done.
  - by rewrite unmount_off_page.
Qed.

(** ** Sequences of calls *)

Lemma perform_step props c key w :
  in_state key (perform props c w).1
  = write_step (state_enabled props) key (in_state key w) c
  ∧ in_url key (perform props c w).1
    = (λ o, write_step (url_enabled props) key o c) <$> in_url key w.
Proof.
  unfold in_state, in_url.
  destruct c as [[k v] options|k|k]; cbn [perform write_step fst snd].
  - destruct (world_cases w) as [(win & s & ->)|(s & ->)].
    + rewrite store_on_page. cbn zeta.
      destruct (url_enabled props options), (state_enabled props options),
        (localStore_enabled props options); simpl;
        destruct (decide (k = key)) as [->|Hk];
        rewrite ?bool_decide_eq_true_2, ?bool_decide_eq_false_2 by done;
        rewrite ?sp_get_set_eq, ?lookup_insert_eq,
          ?sp_get_set_ne, ?lookup_insert_ne by done; done.
    + rewrite store_off_page. simpl.
      destruct (state_enabled props options); simpl;
        destruct (decide (k = key)) as [->|Hk];
        rewrite ?bool_decide_eq_true_2, ?bool_decide_eq_false_2 by done;
        rewrite ?lookup_insert_eq, ?lookup_insert_ne by done; done.
  - destruct (world_cases w) as [(win & s & ->)|(s & ->)]; done.
  - destruct (world_cases w) as [(win & s & ->)|(s & ->)].
    + rewrite clearStored_on_page. simpl.
      destruct (decide (k = key)) as [->|Hk];
        rewrite ?bool_decide_eq_true_2, ?bool_decide_eq_false_2 by done;
        rewrite ?sp_get_delete_eq, ?lookup_delete_eq,
          ?sp_get_delete_ne, ?lookup_delete_ne by done; done.
    + rewrite clearStored_off_page. simpl.
      destruct (decide (k = key)) as [->|Hk];
        rewrite ?bool_decide_eq_true_2, ?bool_decide_eq_false_2 by done;
        rewrite ?lookup_delete_eq, ?lookup_delete_ne by done; done.
Qed.

Lemma perform_all_places props cs key w :
  in_state key (perform_all props cs w)
  = last_write (state_enabled props) key cs (in_state key w)
  ∧ in_url key (perform_all props cs w)
    = last_write (url_enabled props) key cs <$> in_url key w.
Proof.
  revert w. induction cs as [|c cs IH]; intros w; cbn [perform_all].
  - unfold last_write. simpl. split; [done|]. by destruct (in_url key w).
  - destruct (IH (perform props c w).1) as (Hs & Hu).
    destruct (perform_step props c key w) as (Hs1 & Hu1).
    rewrite Hs, Hu, Hs1, Hu1. unfold last_write. cbn [foldl].
    split; [done|]. by destruct (in_url key w).
Qed.

(** X13.  Over any sequence of [store], [getStored] and [clearStored]
    calls, the query parameters and the state object behave, key by key,
    as plain key/value maps: what each holds for [key] afterwards is the
    value of the latest [store] of [key] whose step for that place was let
    through by the flags, nothing if a [clearStored] of [key] came later,
    and what it held before if there was neither.  The state object
    follows this rule even when a [store] raised. *)
Theorem calls_compose_as_maps props cs key w :
  in_state key (perform_all props cs w)
  = last_write (state_enabled props) key cs (in_state key w)
  ∧ in_url key (perform_all props cs w)
    = last_write (url_enabled props) key cs <$> in_url key w.
Proof. apply perform_all_places. Qed.

(** X14.  On a page, after any sequence of calls, [getStored(key)]
    returns the value of the latest [store] of [key] whose URL step ran,
    [null] if a [clearStored] of [key] came later, and otherwise what the
    address held for [key] at the start.  Stores whose URL step is
    suppressed are not seen by it, whatever they put in the state object
    or in durable storage. *)
Theorem getStored_after_calls props cs key win s :
  (ctx_getStored key (perform_all props cs (on_page win s))).2
  = Normal (of_lookup JNull
              (last_write (url_enabled props) key cs
                 (URLSearchParams.get key (location win)))).
Proof.
  destruct (perform_all_places props cs key (on_page win s)) as (_ & Hu).
  destruct (world_cases (perform_all props cs (on_page win s)))
    as [(win' & s' & Hw)|(s' & Hw)]; rewrite Hw in *.
  - unfold ctx_getStored. rewrite getStored_on_page. simpl.
    unfold in_url in Hu. simpl in Hu. by injection Hu as ->.
  - discriminate Hu.
Qed.

(** X15.  Without a page, the [getStored] handed out by the provider never
    reflects a [store]: after any sequence of calls it returns [null] for
    every key that is not the name of a member of [Object.prototype], and
    that inherited member for a key that is.  It reads the state object of
    the mount render, which no [store] ever changes. *)
Theorem getStored_off_page_after_calls props cs key s :
  (ctx_getStored key (perform_all props cs (off_page s))).2
  = Normal (if bool_decide (key ∈ Object_prototype_names)
            then JInherited key else JNull).
Proof.
  destruct (perform_all_places props cs key (off_page s)) as (_ & Hu).
  destruct (world_cases (perform_all props cs (off_page s)))
    as [(win' & s' & Hw)|(s' & Hw)]; rewrite Hw in *.
  - discriminate Hu.
  - by rewrite ctx_getStored_off_page.
Qed.

(** X16.  The state object only ever holds keys that were passed to
    [store]: after any sequence of calls its keys are among those it had
    at the start and those of the [store] calls made.  Reads add none. *)
Theorem state_keys_were_stored props cs w :
  dom (hook_storage (perform_all props cs w))
  ⊆ dom (hook_storage w) ∪ stored_keys cs.
Proof.
  revert w. induction cs as [|c cs IH]; intros w; cbn [perform_all].
  - set_solver.
  - etrans; [apply IH|].
    assert (dom (hook_storage (perform props c w).1)
            ⊆ dom (hook_storage w) ∪ stored_keys [c]) as Hstep.
    { destruct c as [[k v] options|k|k]; cbn [perform stored_keys fst].
      - destruct (world_cases w) as [(win & s & ->)|(s & ->)].
        + rewrite store_on_page. cbn zeta. simpl.
          destruct (state_enabled props options);
            rewrite ?dom_insert_L; set_solver.
        + rewrite store_off_page. simpl.
          destruct (state_enabled props options);
            rewrite ?dom_insert_L; set_solver.
      - destruct (world_cases w) as [(win & s & ->)|(s & ->)]; set_solver.
      - destruct (world_cases w) as [(win & s & ->)|(s & ->)].
        + rewrite clearStored_on_page. simpl. rewrite dom_delete_L. set_solver.
        + rewrite clearStored_off_page. simpl. rewrite dom_delete_L. set_solver. }
    destruct c as [[k v] options|k|k]; cbn [stored_keys] in *; set_solver.
Qed.

(** X17.  On a page, every call that writes the address adds a step to
    the session history: after a sequence of calls the entries behind the
    current one are those there were plus one per [store] whose URL step
    ran and one per [clearStored], whether or not the call changed the
    address.  [getStored] and stores with the URL step suppressed add
    none. *)
Theorem history_grows_per_url_write props cs win s :
  (length ∘ back <$> window (perform_all props cs (on_page win s)))
  = Some (length (back win) + url_writes props cs).
Proof.
  revert win s. induction cs as [|c cs IH]; intros win s;
    cbn [perform_all url_writes].
  - simpl. f_equal. lia.
  - destruct c as [[k v] options|k|k].
    + cbn [perform]. rewrite store_on_page. cbn zeta.
      destruct (url_enabled props options), (localStore_enabled props options);
        cbn [fst]; rewrite IH; simpl; f_equal; lia.
    + change (perform props (Call_getStored k) (on_page win s)).1
        with (on_page win s). by rewrite IH.
    + cbn [perform]. rewrite clearStored_on_page. cbn [fst]. rewrite IH.
      simpl. f_equal. lia.
Qed.
